(** * personal_practices: the record-store script and the Circle class

    Two programs of the repository are embedded here.

    - [BD1/main.py]: a straight-line script over Python's [sqlite3]
      module.  The script is translated statement by statement into a
      small state-and-exception monad.  The storage engine is not part
      of the repository; it is modelled in [Module Sqlite3] as far as
      the three SQL statements of the script need it: the [users] table
      of [example.db], the AUTOINCREMENT counter, the implicit
      transaction opened by an INSERT, and an oracle telling at which
      engine call the environment makes the engine raise.
    - [shape/nivel1/circle.py]: the [Circle] class, whose [_radius]
      property setter assigns to [self._radius] again.  Python bounds
      the depth of the call stack, so the setter is embedded with the
      recursion limit as its structural argument. *)

From stdpp Require Import base list strings pretty gmap sorting.
From Stdlib Require Import ZArith Lia.

Local Open Scope string_scope.
Local Open Scope list_scope.
Local Open Scope Z_scope.

(** ** The storage engine, as far as the script uses it *)

Module Sqlite3.

(** Declared type of a column. *)
Inductive sqltype := INTEGER | TEXT.

(** One column declaration of a CREATE TABLE statement. *)
Record column := Column {
  c_name : string;
  c_type : sqltype;
  c_primary_key : bool;
  c_autoincrement : bool;
  c_not_null : bool
}.

(** A row of [users] as [fetchall] hands it to Python: the tuple
    [(id, name, age, rol)].  The three NOT NULL columns carry no
    null, so the fields are plain values. *)
Record row := Row {
  r_id : Z;      (* user[0] *)
  r_name : string; (* user[1] *)
  r_age : Z;     (* user[2] *)
  r_rol : string   (* user[3] *)
}.

(** A parameter tuple bound to [(?, ?, ?)]. *)
Definition params : Type := string * Z * string.

(** The [users] table: its rows in rowid order (the order in which a
    scan without ORDER BY visits them) and the AUTOINCREMENT counter
    that the engine keeps in [sqlite_sequence]. *)
Record table := Table {
  t_seq : Z;
  t_rows : list row
}.

(** What the script can observe of a database file: whether it holds
    a table named [users], and that table.  [None] covers both the
    file that does not exist yet and the file without such a table.
    A [users] table found in the file is the one the script itself
    declares. *)
Definition db : Type := option table.

(** The declaration of [users] in the CREATE TABLE statement:
    id INTEGER PRIMARY KEY AUTOINCREMENT, name TEXT NOT NULL,
    age INTEGER NOT NULL, rol TEXT NOT NULL. *)
Definition users_columns : list column :=
  [ Column "id" INTEGER true true false;
    Column "name" TEXT false false true;
    Column "age" INTEGER false false true;
    Column "rol" TEXT false false true ].

(** The table the script declares, as a connection finds it in [d]:
    [db] holds no table but the script's own [users].  The schema table
    of the file, with the engine's own tables and with whatever
    declaration a table found in the file has, is [f_schema] further
    down. *)
Definition catalog (d : db) : list (string * list column) :=
  match d with
  | Some _ => [("users", users_columns)]
  | None => []
  end.

Definition rows_of (d : db) : list row :=
  match d with
  | Some t => t_rows t
  | None => []
  end.

(** Largest rowid the engine hands out. *)
Definition max_rowid : Z := 9223372036854775807.

Definition largest_id (rs : list row) : Z :=
  foldr (fun r m => Z.max (r_id r) m) 0 rs.

Inductive exn :=
| OperationalError (msg : string)
| ProgrammingError (msg : string).

(** CREATE TABLE IF NOT EXISTS users (...) *)
Definition create_table_if_not_exists (d : db) : db :=
  match d with
  | Some t => Some t
  | None => Some (Table 0 [])
  end.

(** INSERT INTO users (name, age, rol) VALUES (?, ?, ?): the id is one
    more than the largest rowid the table has ever held. *)
Definition insert_into (p : params) (d : db) : exn + db :=
  match d with
  | None => inl (OperationalError "no such table: users")
  | Some t =>
      let last := Z.max (t_seq t) (largest_id (t_rows t)) in
      if max_rowid <=? last
      then inl (OperationalError "database or disk is full")
      else
        let '(name, age, rol) := p in
        inr (Some (Table (last + 1)
                         (t_rows t ++ [Row (last + 1) name age rol])))
  end.

(** SELECT * FROM users *)
Definition select_all (d : db) : exn + list row :=
  match d with
  | None => inl (OperationalError "no such table: users")
  | Some t => inr (t_rows t)
  end.

(** The statements the script sends. *)
Inductive sql :=
| CREATE_TABLE_IF_NOT_EXISTS_users   (* lines 11 to 16 *)
| INSERT_INTO_users                  (* line 26 *)
| SELECT_FROM_users.                 (* line 30 *)

(** The engine calls of one run; the environment (file permissions,
    disk space, locks) decides for each whether it raises. *)
Inductive call :=
| CallConnect
| CallCreate
| CallInsert (i : nat)
| CallCommit
| CallSelect.

Global Instance call_eq_dec : EqDecision call.
Proof. solve_decision. Defined.

(** An open connection with its one cursor.  [pending] is the working
    copy of an open transaction; without one, statements act on the
    file directly (autocommit). *)
Record connection := Connection {
  pending : option db;
  results : list row
}.

End Sqlite3.

Import Sqlite3.

(** ** The process: file, connection, standard output *)

Inductive event :=
| Connected
| Printed (line : string)
| Closed.

Global Instance event_eq_dec : EqDecision event.
Proof. solve_decision. Defined.

Record world := World {
  disk : db;                    (* committed contents of example.db *)
  conn : option connection;     (* the open connection, if any *)
  trace : list event            (* what the process did, oldest first *)
}.

Inductive result (A : Type) :=
| Ok (a : A)
| Raise (e : exn).
Arguments Ok {A} a.
Arguments Raise {A} e.

Definition M (A : Type) : Type := world -> result A * world.

Global Instance M_ret : MRet M := fun A a w => (Ok a, w).

Global Instance M_throw : MThrow exn M := fun A e w => (Raise e, w).

Global Instance M_bind : MBind M := fun A B f m w =>
  match m w with
  | (Ok a, w') => f a w'
  | (Raise e, w') => (Raise e, w')
  end.

Definition emit (e : event) : M unit :=
  fun w => (Ok tt, World (disk w) (conn w) (trace w ++ [e])).

(** The database as the connection sees it. *)
Definition view (w : world) (c : connection) : db :=
  match pending c with
  | Some d => d
  | None => disk w
  end.

Section Script.

(** [raises c] holds when the environment makes engine call [c] fail. *)
Variable raises : call -> bool.

Definition may_raise (c : call) (msg : string) : M unit :=
  if raises c then mthrow (OperationalError msg) else mret tt.

Definition with_connection {A} (k : connection -> M A) : M A :=
  fun w =>
    match conn w with
    | Some c => k c w
    | None => (Raise (ProgrammingError "Cannot operate on a closed database."), w)
    end.

Definition set_connection (c : connection) : M unit :=
  fun w => (Ok tt, World (disk w) (Some c) (trace w)).

(** Writes go to the open transaction if there is one, else to the file. *)
Definition store (c : connection) (d : db) : M unit :=
  fun w =>
    match pending c with
    | Some _ => (Ok tt, World (disk w) (Some (Connection (Some d) (results c))) (trace w))
    | None => (Ok tt, World d (Some c) (trace w))
    end.

(** sqlite3.connect(path) *)
Definition connect (path : string) : M unit :=
  may_raise CallConnect "unable to open database file";;
  set_connection (Connection None []);;
  emit Connected.

(** connection.cursor() *)
Definition cursor : M unit :=
  with_connection (fun _ => mret tt).

(** The engine gives a transaction up: the working copy is dropped,
    no transaction is open any more, and the error is raised. *)
Definition roll_back_and_raise {A} (e : exn) : M A :=
  fun w =>
    (Raise e,
     World (disk w)
           (match conn w with
            | Some c => Some (Connection None (results c))
            | None => None
            end)
           (trace w)).

(** One row of an INSERT.  An INSERT that fails for an I/O error or
    for want of a rowid makes the engine roll the whole transaction
    back: the rows inserted before it are gone with it. *)
Definition insert_step (i : nat) (p : params) : M unit :=
  (if raises (CallInsert i)
   then roll_back_and_raise (OperationalError "disk I/O error")
   else mret tt);;
  with_connection (fun c w =>
    match insert_into p (view w c) with
    | inl e => roll_back_and_raise e w
    | inr d => (Ok tt, World (disk w) (Some (Connection (Some d) (results c))) (trace w))
    end).

Fixpoint insert_steps (i : nat) (ps : list params) : M unit :=
  match ps with
  | [] => mret tt
  | p :: ps' => insert_step i p;; insert_steps (S i) ps'
  end.

(** The module opens a transaction before an INSERT when none is open. *)
Definition begin_transaction : M unit :=
  with_connection (fun c w =>
    match pending c with
    | Some _ => (Ok tt, w)
    | None => (Ok tt, World (disk w) (Some (Connection (Some (disk w)) (results c))) (trace w))
    end).

(** cursor.execute(sql) *)
Definition execute (s : sql) : M unit :=
  match s with
  | CREATE_TABLE_IF_NOT_EXISTS_users =>
      may_raise CallCreate "attempt to write a readonly database";;
      with_connection (fun c w => store c (create_table_if_not_exists (view w c)) w)
  | INSERT_INTO_users =>
      mthrow (ProgrammingError "Incorrect number of bindings supplied.")
  | SELECT_FROM_users =>
      may_raise CallSelect "disk I/O error";;
      with_connection (fun c w =>
        match select_all (view w c) with
        | inl e => (Raise e, w)
        | inr rs => (Ok tt, World (disk w) (Some (Connection (pending c) rs)) (trace w))
        end)
  end.

(** cursor.executemany(sql, seq_of_parameters) *)
Definition executemany (s : sql) (ps : list params) : M unit :=
  match s with
  | INSERT_INTO_users => begin_transaction;; insert_steps 0 ps
  | _ => mthrow (ProgrammingError "executemany() can only execute DML statements.")
  end.

(** connection.commit() *)
Definition commit : M unit :=
  with_connection (fun c w =>
    match pending c with
    | None => (Ok tt, w)
    | Some d =>
        if raises CallCommit
        then (Raise (OperationalError "disk I/O error"), w)
        else (Ok tt, World d (Some (Connection None (results c))) (trace w))
    end).

(** cursor.fetchall() *)
Definition fetchall : M (list row) :=
  with_connection (fun c w =>
    (Ok (results c), World (disk w) (Some (Connection (pending c) [])) (trace w))).

(** connection.close(): an uncommitted transaction is dropped. *)
Definition close : M unit :=
  with_connection (fun _ w => (Ok tt, World (disk w) None (trace w ++ [Closed]))).

(** print(line) *)
Definition print (line : string) : M unit := emit (Printed line).

(** for x in xs: body(x) *)
Fixpoint for_each {A} (xs : list A) (body : A -> M unit) : M unit :=
  match xs with
  | [] => mret tt
  | x :: xs' => body x;; for_each xs' body
  end.

(** *** BD1/main.py *)

Definition user_data : list params :=
  [ ("Basir", 15, "normal");
    ("Ana", 25, "admin");
    ("Luis", 35, "normal");
    ("Maria", 28, "admin") ].

Definition header : string := "------ Usuarios en la base de datos ------".

(** f"User -> {user[1]} | Age -> {user[2]} | Rol -> {user[3]}" *)
Definition format_user (user : row) : string :=
  "User -> " +:+ r_name user +:+ " | Age -> " +:+ pretty (r_age user)
    +:+ " | Rol -> " +:+ r_rol user.

(** Lines 4 and 7. *)
Definition open_store : M unit :=
  connect "example.db";; cursor.

(** Lines 10 to 17. *)
Definition ensure_schema : M unit :=
  execute CREATE_TABLE_IF_NOT_EXISTS_users.

(** Lines 20 to 27. *)
Definition seed_records : M unit :=
  executemany INSERT_INTO_users user_data;;
  commit.

(** Lines 30 to 32. *)
Definition fetch_all : M (list row) :=
  execute SELECT_FROM_users;;
  fetchall.

(** Lines 34 to 37. *)
Definition render (users : list row) : M unit :=
  print header;;
  for_each users (fun user => print (format_user user)).

(** Line 40. *)
Definition close_store : M unit := close.

Definition main : M unit :=
  open_store;;
  ensure_schema;;
  seed_records;;
  users ← fetch_all;
  render users;;
  close_store.

(** The script up to line 32, where [users] is bound. *)
Definition upto_fetch : M (list row) :=
  open_store;;
  ensure_schema;;
  seed_records;;
  fetch_all.

End Script.

(** ** Running the script as a process *)

Definition boot (d : db) : world := World d None [].

(** Exit status of the interpreter: 0, or 1 after an uncaught exception. *)
Definition exit_status {A} (r : result A) : Z :=
  match r with
  | Ok _ => 0
  | Raise _ => 1
  end.

Definition stdout_of (tr : list event) : list string :=
  omap (fun e => match e with Printed l => Some l | _ => None end) tr.

Definition count_of (e : event) (tr : list event) : nat :=
  length (filter (fun e' => e' = e) tr).

(** An environment in which no engine call fails. *)
Definition no_faults : call -> bool := fun _ => false.

(** An environment in which exactly the engine call [c] fails. *)
Definition fault_at (c : call) : call -> bool :=
  fun c' => bool_decide (c' = c).

(** ** Notions used to state the properties *)

(** The largest rowid a table has ever held; 0 for a table not yet created. *)
Definition last_id (d : db) : Z :=
  match d with
  | Some t => Z.max (t_seq t) (largest_id (t_rows t))
  | None => 0
  end.

(** The rows an INSERT of [ps] adds to a table whose largest rowid is [last]. *)
Fixpoint number_from (last : Z) (ps : list params) : list row :=
  match ps with
  | [] => []
  | (name, age, rol) :: ps' =>
      Row (last + 1) name age rol :: number_from (last + 1) ps'
  end.

(** The (name, age, rol) part of a row. *)
Definition fields (r : row) : params := (r_name r, r_age r, r_rol r).

(** A whole batch of inserts on the working copy. *)
Fixpoint insert_batch (ps : list params) (d : db) : exn + db :=
  match ps with
  | [] => inr d
  | p :: ps' =>
      match insert_into p d with
      | inl e => inl e
      | inr d' => insert_batch ps' d'
      end
  end.

(** A world with the connection open and no transaction in progress. *)
Definition idle (d : db) (rs : list row) (tr : list event) : world :=
  World d (Some (Connection None rs)) tr.

(** A world inside a transaction whose working copy is [d']. *)
Definition in_transaction (d d' : db) (rs : list row) (tr : list event) : world :=
  World d (Some (Connection (Some d') rs)) tr.

(** How a run can end short of line 34: the connection was never
    opened, or it is still open over one of three file contents. *)
Definition stopped (d : db) (w : world) : Prop :=
  w = boot d
  \/ exists c d',
       w = World d' (Some c) [Connected]
       /\ (d' = d
           \/ d' = create_table_if_not_exists d
           \/ insert_batch user_data (create_table_if_not_exists d) = inr d').

(** The database as the process currently sees it: through the open
    transaction if there is one. *)
Definition current (w : world) : db :=
  match conn w with
  | Some c => view w c
  | None => disk w
  end.

(** The engine calls one run can make. *)
Definition performed : list call :=
  [CallConnect; CallCreate; CallInsert 0; CallInsert 1; CallInsert 2;
   CallInsert 3; CallCommit; CallSelect].

(** The columns of [users] as section 6 of the specification lists them. *)
Definition spec_users_columns : list column :=
  [ Column "id" INTEGER true true false;
    Column "name" TEXT false false true;
    Column "age" INTEGER false false true;
    Column "role" TEXT false false true ].

(** ** The schema table of the file *)

(** An entry of the schema table ([sqlite_master]): a table an
    application declared, with its columns, or [sqlite_sequence(name,
    seq)], the table the engine keeps the AUTOINCREMENT counters in. *)
Inductive schema_entry :=
| Declared (cols : list column)
| EngineTable.

(** CREATE TABLE IF NOT EXISTS [name] ([cols]) on the schema table:
    nothing happens when a table of that name is there, whatever its
    declaration; otherwise the table is entered with the declaration of
    the statement, and with the first AUTOINCREMENT column of the file
    comes [sqlite_sequence]. *)
Definition create_table_entry (name : string) (cols : list column)
    (m : gmap string schema_entry) : gmap string schema_entry :=
  match m !! name with
  | Some _ => m
  | None =>
      let m' := <[name := Declared cols]> m in
      if existsb c_autoincrement cols
      then match m' !! "sqlite_sequence" with
           | Some _ => m'
           | None => <["sqlite_sequence" := EngineTable]> m'
           end
      else m'
  end.

(** A database file: its schema table beside the contents of [users]. *)
Record file := File {
  f_schema : gmap string schema_entry;
  f_users : db
}.

(** The schema table lists [users] exactly when the table is there. *)
Definition consistent (f : file) : Prop :=
  is_Some (f_schema f !! "users") <-> is_Some (f_users f).

(** A run on a file.  Line 10 is the one statement of the script that
    writes the schema table; it is executed, in autocommit mode, when
    neither the connect nor the statement itself raises. *)
Definition run_on (raises : call -> bool) (f : file) : result unit * file :=
  let '(r, w) := main raises (boot (f_users f)) in
  (r,
   File (if raises CallConnect || raises CallCreate
         then f_schema f
         else create_table_entry "users" users_columns (f_schema f))
        (disk w)).

(** ** shape/nivel1/circle.py *)

Module Circle.

Inductive exn :=
| ValueError (msg : string)
| TypeError
| RecursionError.

Inductive outcome (A : Type) :=
| Return (a : A)
| Raise (e : exn).
Arguments Return {A} a.
Arguments Raise {A} e.

Section Class.

(** The values a radius can be, and the test [value < 0] on them;
    [None] when the comparison itself raises. *)
Variable V : Type.
Variable lt_zero : V -> option bool.

(** An instance: the attributes stored in its [__dict__]. *)
Record instance := Instance { attrs : list (string * V) }.

(** The setter of the property [_radius] (lines 9 to 13).  [_radius]
    is a property of the class, so the assignment of line 13 calls
    this setter again.  [depth] is the number of frames the
    interpreter still allows; [calls] counts the entries into the
    setter. *)
Fixpoint _radius_setter (depth : nat) (self : instance) (value : V)
    (calls : nat) : outcome instance * nat :=
  match depth with
  | O => (Raise RecursionError, calls)
  | S depth' =>
      match lt_zero value with
      | None => (Raise TypeError, S calls)
      | Some true => (Raise (ValueError "IngresÃ¡ un numero positivo gil"), S calls)
      | Some false => _radius_setter depth' self value (S calls)
      end
  end.

(** Lines 2 and 3. *)
Definition __init__ (depth : nat) (self : instance) (radius : V)
    (calls : nat) : outcome instance * nat :=
  match depth with
  | O => (Raise RecursionError, calls)
  | S depth' => _radius_setter depth' self radius calls
  end.

(** [Circle(radius)] with [limit] frames left: the outcome, and the
    number of times the setter was entered. *)
Definition Circle (limit : nat) (radius : V) : outcome instance * nat :=
  __init__ limit (Instance []) radius 0.

End Class.

(** Python integers as radius values. *)
Definition int_lt_zero (n : Z) : option bool := Some (n <? 0).

End Circle.

(** ** Running the script again and again *)

(** [n] runs of the script, one after the other, on the same file: the
    file contents after the last one. *)
Fixpoint rerun (raises : call -> bool) (n : nat) (d : db) : db :=
  match n with
  | O => d
  | S n' => rerun raises n' (disk (main raises (boot d)).2)
  end.

(** The ids of the rows, in the order a scan returns them. *)
Definition ids (d : db) : list Z := map r_id (rows_of d).

(** ** The rest of shape/nivel1/circle.py, and rectangle.py *)

(** Exceptions and outcomes shared by the methods below. *)
Module Py.

Inductive exn :=
| ValueError (msg : string)
| TypeError
| RecursionError
| AttributeError (name : string).

Inductive outcome (A : Type) :=
| Return (a : A)
| Raise (e : exn).
Arguments Return {A} a.
Arguments Raise {A} e.

Definition of_circle_exn (e : Circle.exn) : exn :=
  match e with
  | Circle.ValueError msg => ValueError msg
  | Circle.TypeError => TypeError
  | Circle.RecursionError => RecursionError
  end.

End Py.

Module CircleMethods.

Import Py.

Section Methods.

(** The values of the program; [value < 0]; the float [math.pi] and
    the literal [2]; the operators [*] and [**], which raise on
    operands they do not accept; and [str]. *)
Variable V : Type.
Variable lt_zero : V -> option bool.
Variable pi two : V.
Variable mul pow : V -> V -> outcome V.
Variable str : V -> string.

(** The entry of an instance's [__dict__] under [name]. *)
Definition dict_get (self : Circle.instance V) (name : string) : option V :=
  (list_to_map (Circle.attrs V self) : gmap string V) !! name.

(** The getter of the property [_radius] (lines 5 to 7): it reads
    [self._radius], which is the property again.  [depth] is the number
    of frames the interpreter still allows; [calls] counts the entries
    into the getter. *)
Fixpoint _radius_getter (depth : nat) (self : Circle.instance V)
    (calls : nat) : outcome V * nat :=
  match depth with
  | O => (Raise RecursionError, calls)
  | S depth' => _radius_getter depth' self (S calls)
  end.

(** Lines 15 and 16: [pi * self.radius ** 2].  The class defines no
    attribute [radius], so the lookup goes to the instance. *)
Definition area (depth : nat) (self : Circle.instance V) : outcome V :=
  match depth with
  | O => Raise RecursionError
  | S _ =>
      match dict_get self "radius" with
      | None => Raise (AttributeError "radius")
      | Some r =>
          match pow r two with
          | Return sq => mul pi sq
          | Raise e => Raise e
          end
      end
  end.

(** Lines 18 and 19: [2 * pi * self.radius], evaluated left to right. *)
Definition perimeter (depth : nat) (self : Circle.instance V) : outcome V :=
  match depth with
  | O => Raise RecursionError
  | S _ =>
      match mul two pi with
      | Raise e => Raise e
      | Return two_pi =>
          match dict_get self "radius" with
          | None => Raise (AttributeError "radius")
          | Some r => mul two_pi r
          end
      end
  end.

(** Lines 21 and 22, for an instance whose class is named [class_name]. *)
Definition __str__ (depth : nat) (class_name : string)
    (self : Circle.instance V) : outcome string * nat :=
  match depth with
  | O => (Raise RecursionError, O)
  | S depth' =>
      match _radius_getter depth' self 0 with
      | (Return r, calls) =>
          (Return (class_name +:+ "(radius=" +:+ str r +:+ ")"), calls)
      | (Raise e, calls) => (Raise e, calls)
      end
  end.

(** Lines 26 to 29, with [radius] for the literal of line 26: how the
    module ends and what it has printed.  [limit] is the number of
    frames available to a call made at module level. *)
Definition script (limit : nat) (radius : V) : outcome unit * list string :=
  match Circle.Circle V lt_zero limit radius with
  | (Circle.Raise e, _) => (Raise (of_circle_exn e), [])
  | (Circle.Return circle, _) =>
      match area limit circle with
      | Raise e => (Raise e, [])
      | Return a =>
          match perimeter limit circle with
          | Raise e => (Raise e, [str a])
          | Return p =>
              match __str__ limit "Circle" circle with
              | (Raise e, _) => (Raise e, [str a; str p])
              | (Return s, _) => (Return tt, [str a; str p; s])
              end
          end
      end
  end.

End Methods.

End CircleMethods.

Module Rectangle.

Import Py.

Section Class.

Variable V : Type.
Variable lt_zero : V -> option bool.

(** An instance: the attributes stored in its [__dict__]. *)
Record instance := Instance { attrs : list (string * V) }.

(** How often each setter has been entered. *)
Record calls := Calls { width_calls : nat; height_calls : nat }.

(** The setter of the property [width] (lines 20 to 24): line 24
    assigns to [self.width], which is the property again. *)
Fixpoint width_setter (depth : nat) (self : instance) (value : V)
    (n : calls) : outcome instance * calls :=
  match depth with
  | O => (Raise RecursionError, n)
  | S depth' =>
      let n' := Calls (S (width_calls n)) (height_calls n) in
      match lt_zero value with
      | None => (Raise TypeError, n')
      | Some true => (Raise (ValueError "Ingresá un numero positivo gil"), n')
      | Some false => width_setter depth' self value n'
      end
  end.

(** The setter of the property [height] (lines 10 to 14). *)
Fixpoint height_setter (depth : nat) (self : instance) (value : V)
    (n : calls) : outcome instance * calls :=
  match depth with
  | O => (Raise RecursionError, n)
  | S depth' =>
      let n' := Calls (width_calls n) (S (height_calls n)) in
      match lt_zero value with
      | None => (Raise TypeError, n')
      | Some true => (Raise (ValueError "Ingresá un numero positivo gil"), n')
      | Some false => height_setter depth' self value n'
      end
  end.

(** The getters (lines 6 to 8 and 16 to 18): each reads its own
    property.  The number returned counts the entries. *)
Fixpoint height_getter (depth : nat) (self : instance) (n : nat)
    : outcome V * nat :=
  match depth with
  | O => (Raise RecursionError, n)
  | S depth' => height_getter depth' self (S n)
  end.

Fixpoint width_getter (depth : nat) (self : instance) (n : nat)
    : outcome V * nat :=
  match depth with
  | O => (Raise RecursionError, n)
  | S depth' => width_getter depth' self (S n)
  end.

(** Lines 2 to 4: the width is assigned first, then the height. *)
Definition __init__ (depth : nat) (self : instance) (height width : V)
    (n : calls) : outcome instance * calls :=
  match depth with
  | O => (Raise RecursionError, n)
  | S depth' =>
      match width_setter depth' self width n with
      | (Return self', n') => height_setter depth' self' height n'
      | (Raise e, n') => (Raise e, n')
      end
  end.

(** [Rectangle(height, width)] with [limit] frames left. *)
Definition Rectangle (limit : nat) (height width : V)
    : outcome instance * calls :=
  __init__ limit (Instance []) height width (Calls 0 0).

End Class.

End Rectangle.

(** ** Facts about the engine *)

Lemma largest_id_nonneg rs : 0 <= largest_id rs.
Proof. induction rs as [|r rs IH]; simpl; lia. Qed.

Lemma largest_id_app rs rs' :
  largest_id (rs ++ rs') = Z.max (largest_id rs) (largest_id rs').
Proof.
  induction rs as [|r rs IH]; simpl.
  - pose proof (largest_id_nonneg rs'). lia.
  - rewrite IH. lia.
Qed.

Lemma last_id_create d : last_id (create_table_if_not_exists d) = last_id d.
Proof. destruct d as [t|]; reflexivity. Qed.

Lemma rows_of_create d : rows_of (create_table_if_not_exists d) = rows_of d.
Proof. destruct d as [t|]; reflexivity. Qed.

Lemma insert_into_inr p d d' :
  insert_into p d = inr d' ->
  last_id d < max_rowid
  /\ is_Some d
  /\ d' = Some (Table (last_id d + 1)
                      (rows_of d ++ number_from (last_id d) [p])).
Proof.
  destruct d as [t|]; simpl; [|discriminate].
  destruct (Z.leb_spec max_rowid (Z.max (t_seq t) (largest_id (t_rows t))));
    [discriminate|].
  destruct p as [[name age] rol]. intros [= <-]. eauto.
Qed.

Lemma last_id_insert d p :
  0 <= last_id d ->
  last_id (Some (Table (last_id d + 1)
                       (rows_of d ++ number_from (last_id d) [p])))
  = last_id d + 1.
Proof.
  intros Hd. destruct p as [[name age] rol]. simpl.
  rewrite largest_id_app. simpl.
  assert (largest_id (rows_of d) <= last_id d).
  { destruct d as [t|]; simpl; lia. }
  lia.
Qed.

Lemma last_id_nonneg d : 0 <= last_id d.
Proof.
  destruct d as [t|]; simpl; [|lia].
  pose proof (largest_id_nonneg (t_rows t)). lia.
Qed.

Lemma number_from_fields last ps : map fields (number_from last ps) = ps.
Proof.
  revert last. induction ps as [|[[name age] rol] ps IH]; intros last; simpl.
  - reflexivity.
  - by rewrite IH.
Qed.

(** A successful batch appends its rows, numbered onwards from the
    largest rowid, and touches nothing else. *)
Lemma insert_batch_inr ps d d' :
  insert_batch ps d = inr d' ->
  rows_of d' = rows_of d ++ number_from (last_id d) ps
  /\ last_id d' = last_id d + Z.of_nat (length ps)
  /\ (is_Some d -> is_Some d').
Proof.
  revert d. induction ps as [|p ps IH]; intros d; simpl.
  - intros [= <-]. rewrite app_nil_r. split_and!; [done|lia|done].
  - destruct (insert_into p d) as [e|d1] eqn:Hp; [discriminate|].
    intros Hps. apply insert_into_inr in Hp as (_ & _ & ->).
    apply IH in Hps as (Hrows & Hlast & Hsome).
    rewrite last_id_insert in Hrows, Hlast by apply last_id_nonneg.
    simpl in Hrows. destruct p as [[name age] rol]. simpl in *.
    rewrite Hrows, <- app_assoc. simpl.
    split_and!; [done|lia|]. intros _. apply Hsome. eauto.
Qed.

(** The batch fails only for want of a table or of rowids. *)
Lemma insert_batch_is_inr ps d :
  is_Some d ->
  last_id d + Z.of_nat (length ps) <= max_rowid ->
  exists d', insert_batch ps d = inr d'.
Proof.
  revert d. induction ps as [|p ps IH]; intros d Hd Hlast; simpl; [eauto|].
  destruct d as [t|]; [|by destruct Hd]. simpl in Hlast |- *.
  destruct (Z.leb_spec max_rowid (Z.max (t_seq t) (largest_id (t_rows t)))).
  { lia. }
  destruct p as [[name age] rol].
  apply IH; [eauto|].
  pose proof (last_id_insert (Some t) (name, age, rol)
                (last_id_nonneg (Some t))) as Hl.
  simpl in Hl. simpl. rewrite Hl. lia.
Qed.

(** ** What each phase of the script does *)

Lemma bind_unfold {A B} (m : M A) (f : A -> M B) (w : world) :
  (m ≫= f) w = match m w with
               | (Ok a, w') => f a w'
               | (Raise e, w') => (Raise e, w')
               end.
Proof. reflexivity. Qed.

Section Phases.

Variable raises : call -> bool.

Lemma open_store_boot d :
  open_store raises (boot d)
  = if raises CallConnect
    then (Raise (OperationalError "unable to open database file"), boot d)
    else (Ok tt, idle d [] [Connected]).
Proof.
  unfold open_store, connect, may_raise. rewrite !bind_unfold.
  destruct (raises CallConnect); reflexivity.
Qed.

Lemma ensure_schema_idle d rs tr :
  ensure_schema raises (idle d rs tr)
  = if raises CallCreate
    then (Raise (OperationalError "attempt to write a readonly database"),
          idle d rs tr)
    else (Ok tt, idle (create_table_if_not_exists d) rs tr).
Proof.
  unfold ensure_schema, execute, may_raise. rewrite !bind_unfold.
  destruct (raises CallCreate); reflexivity.
Qed.

Lemma insert_steps_post ps : forall i d d1 rs tr,
  match insert_steps raises i ps (in_transaction d d1 rs tr) with
  | (Ok _, w) =>
      exists d2, insert_batch ps d1 = inr d2 /\ w = in_transaction d d2 rs tr
  | (Raise _, w) => w = idle d rs tr
  end.
Proof.
  induction ps as [|p ps IH]; intros i d d1 rs tr; simpl.
  - eauto.
  - rewrite bind_unfold. unfold insert_step.
    rewrite bind_unfold.
    destruct (raises (CallInsert i)); simpl; [done|].
    unfold with_connection, in_transaction, view; simpl.
    destruct (insert_into p d1) as [e|d2]; simpl; [done|].
    apply (IH (S i) d d2 rs tr).
Qed.

Lemma seed_records_idle d rs tr :
  match seed_records raises (idle d rs tr) with
  | (Ok _, w) =>
      exists d', insert_batch user_data d = inr d' /\ w = idle d' rs tr
  | (Raise _, w) => exists c, w = World d (Some c) tr
  end.
Proof.
  unfold seed_records, executemany. rewrite !bind_unfold.
  change (begin_transaction (idle d rs tr))
    with (Ok tt, in_transaction d d rs tr).
  pose proof (insert_steps_post user_data 0 d d rs tr) as Hsteps.
  destruct (insert_steps raises 0 user_data (in_transaction d d rs tr))
    as [[[]|e] w].
  - destruct Hsteps as (d' & Hbatch & ->).
    unfold commit, with_connection, in_transaction; simpl.
    destruct (raises CallCommit); eauto.
  - subst w. unfold idle. eauto.
Qed.

Lemma fetch_all_idle d rs tr :
  match fetch_all raises (idle d rs tr) with
  | (Ok users, w) =>
      is_Some d /\ users = rows_of d /\ w = idle d [] tr
  | (Raise _, w) => w = idle d rs tr
  end.
Proof.
  unfold fetch_all, execute, may_raise. rewrite !bind_unfold.
  destruct (raises CallSelect); simpl; [done|].
  destruct d as [t|]; simpl; eauto.
Qed.

Lemma for_each_print {A} (f : A -> string) (xs : list A) w :
  for_each xs (fun x => print (f x)) w
  = (Ok tt, World (disk w) (conn w) (trace w ++ map (fun x => Printed (f x)) xs)).
Proof.
  revert w. induction xs as [|x xs IH]; intros w; simpl.
  - rewrite app_nil_r. by destruct w.
  - rewrite bind_unfold. simpl. rewrite IH. simpl.
    by rewrite <- app_assoc.
Qed.

Lemma render_eq users w :
  render users w
  = (Ok tt, World (disk w) (conn w)
                  (trace w ++ map Printed (header :: map format_user users))).
Proof.
  unfold render. rewrite bind_unfold. simpl.
  rewrite for_each_print. simpl.
  by rewrite <- app_assoc, map_map.
Qed.

Local Ltac left_open :=
  right; unfold idle; eexists _, _; split; [reflexivity|]; auto.

Lemma upto_fetch_post d :
  match upto_fetch raises (boot d) with
  | (Ok users, w) =>
      exists d',
        insert_batch user_data (create_table_if_not_exists d) = inr d'
        /\ users = rows_of d'
        /\ w = idle d' [] [Connected]
  | (Raise _, w) => stopped d w
  end.
Proof.
  unfold upto_fetch, stopped. rewrite bind_unfold, open_store_boot.
  destruct (raises CallConnect); [by left|].
  rewrite bind_unfold, ensure_schema_idle.
  destruct (raises CallCreate); [left_open|].
  rewrite bind_unfold.
  pose proof (seed_records_idle (create_table_if_not_exists d) [] [Connected])
    as Hseed.
  destruct (seed_records raises _) as [[[]|e] w].
  2:{ destruct Hseed as (c & ->). left_open. }
  destruct Hseed as (d' & Hbatch & ->).
  pose proof (fetch_all_idle d' [] [Connected]) as Hfetch.
  destruct (fetch_all raises _) as [[users|e] w].
  2:{ subst w. left_open. }
  destruct Hfetch as (_ & -> & ->). eauto.
Qed.

Lemma main_split w :
  main raises w
  = (users ← upto_fetch raises; render users;; close_store) w.
Proof.
  unfold main, upto_fetch. rewrite !bind_unfold.
  destruct (open_store raises w) as [[[]|e] w1]; [|done].
  rewrite !bind_unfold.
  destruct (ensure_schema raises w1) as [[[]|e] w2]; [|done].
  rewrite !bind_unfold.
  destruct (seed_records raises w2) as [[[]|e] w3]; [|done].
  rewrite !bind_unfold.
  by destruct (fetch_all raises w3) as [[users|e] w4].
Qed.

(** The whole run: what is on the file, whether the connection is
    still open, and what the process did, by the way the run ends. *)
Lemma main_post d :
  match main raises (boot d) with
  | (Ok _, w) =>
      exists d',
        insert_batch user_data (create_table_if_not_exists d) = inr d'
        /\ w = World d' None
                 (Connected
                    :: map Printed (header :: map format_user (rows_of d'))
                    ++ [Closed])
  | (Raise _, w) => stopped d w
  end.
Proof.
  rewrite main_split, bind_unfold.
  pose proof (upto_fetch_post d) as Hfetch.
  destruct (upto_fetch raises (boot d)) as [[users|e] w]; [|done].
  destruct Hfetch as (d' & Hbatch & -> & ->).
  rewrite bind_unfold, render_eq. simpl. eauto.
Qed.

(** Without faults, and with rowids to spare, the run reaches its end. *)
Lemma insert_steps_run ps : forall i d d1 d2 rs tr,
  (forall j, raises (CallInsert j) = false) ->
  insert_batch ps d1 = inr d2 ->
  insert_steps raises i ps (in_transaction d d1 rs tr)
  = (Ok tt, in_transaction d d2 rs tr).
Proof.
  induction ps as [|p ps IH]; intros i d d1 d2 rs tr Hno; simpl.
  - by intros [= ->].
  - destruct (insert_into p d1) as [e|d1'] eqn:Hp; [discriminate|].
    intros Hps. rewrite bind_unfold. unfold insert_step.
    rewrite bind_unfold, Hno. simpl.
    unfold with_connection, in_transaction, view. simpl. rewrite Hp.
    by apply IH.
Qed.

Lemma upto_fetch_run d d' :
  (forall c, raises c = false) ->
  insert_batch user_data (create_table_if_not_exists d) = inr d' ->
  upto_fetch raises (boot d) = (Ok (rows_of d'), idle d' [] [Connected]).
Proof.
  intros Hno Hbatch. unfold upto_fetch.
  rewrite bind_unfold, open_store_boot, Hno.
  rewrite bind_unfold, ensure_schema_idle, Hno.
  rewrite bind_unfold. unfold seed_records, executemany.
  rewrite !bind_unfold.
  change (begin_transaction (idle (create_table_if_not_exists d) [] [Connected]))
    with (Ok tt, in_transaction (create_table_if_not_exists d)
                   (create_table_if_not_exists d) [] [Connected]).
  cbv beta iota zeta. rewrite (insert_steps_run _ _ _ _ d') by done.
  unfold commit, with_connection, in_transaction. simpl. rewrite Hno.
  unfold fetch_all, execute, may_raise. rewrite !bind_unfold, Hno. simpl.
  apply insert_batch_inr in Hbatch as (_ & _ & Hsome).
  destruct Hsome as [t ->]; [by destruct d; eauto|]. reflexivity.
Qed.

Lemma main_run d d' :
  (forall c, raises c = false) ->
  insert_batch user_data (create_table_if_not_exists d) = inr d' ->
  main raises (boot d)
  = (Ok tt, World d' None
              (Connected
                 :: map Printed (header :: map format_user (rows_of d'))
                 ++ [Closed])).
Proof.
  intros Hno Hbatch.
  rewrite main_split, bind_unfold, (upto_fetch_run d d') by done.
  by rewrite bind_unfold, render_eq.
Qed.

End Phases.

(** ** The run of the record store *)

(** In an environment without faults, on a table with four rowids to
    spare, the run exits normally and has appended the seed batch. *)
Lemma main_succeeds raises d :
  (forall c, raises c = false) ->
  last_id d + 4 <= max_rowid ->
  exists w,
    main raises (boot d) = (Ok tt, w)
    /\ rows_of (disk w) = rows_of d ++ number_from (last_id d) user_data.
Proof.
  intros Hno Hroom.
  destruct (insert_batch_is_inr user_data (create_table_if_not_exists d))
    as [d' Hbatch].
  { destruct d; simpl; eauto. }
  { rewrite last_id_create. simpl. lia. }
  eexists. split; [by apply main_run|]. simpl.
  apply insert_batch_inr in Hbatch as (-> & _ & _).
  by rewrite rows_of_create, last_id_create.
Qed.

Lemma create_table_if_not_exists_idemp d :
  create_table_if_not_exists (create_table_if_not_exists d)
  = create_table_if_not_exists d.
Proof. by destruct d. Qed.

Lemma catalog_create d :
  catalog (create_table_if_not_exists d) = [("users", users_columns)].
Proof. by destruct d. Qed.

Lemma stdout_of_printed ls : stdout_of (map Printed ls) = ls.
Proof. induction ls as [|l ls IH]; simpl; [done|]. by rewrite IH. Qed.

Lemma stdout_of_app tr tr' : stdout_of (tr ++ tr') = stdout_of tr ++ stdout_of tr'.
Proof. unfold stdout_of. apply omap_app. Qed.

Lemma count_of_app e tr tr' :
  count_of e (tr ++ tr') = (count_of e tr + count_of e tr')%nat.
Proof. unfold count_of. by rewrite filter_app, length_app. Qed.

Lemma count_of_printed e ls :
  (forall l, e <> Printed l) -> count_of e (map Printed ls) = 0%nat.
Proof.
  intros He. unfold count_of. induction ls as [|l ls IH]; simpl; [done|].
  rewrite filter_cons_False; [done|]. intros Hl. by apply (He l).
Qed.

(** The trace of a run that reaches its last line. *)
Lemma finished_trace ls :
  let tr := Connected :: map Printed ls ++ [Closed] in
  count_of Connected tr = 1%nat
  /\ count_of Closed tr = 1%nat
  /\ last tr = Some Closed
  /\ stdout_of tr = ls.
Proof.
  intros tr. subst tr.
  change (Connected :: map Printed ls ++ [Closed])
    with ([Connected] ++ map Printed ls ++ [Closed]).
  rewrite !count_of_app, !count_of_printed, !stdout_of_app,
    stdout_of_printed, app_assoc, last_snoc by done.
  simpl. by rewrite app_nil_r.
Qed.

(** A run that ends short of line 34 has printed nothing, has not
    executed [connection.close()], and holds the connection open if it
    ever opened it. *)
Lemma stopped_trace d w :
  stopped d w ->
  stdout_of (trace w) = []
  /\ count_of Closed (trace w) = 0%nat
  /\ match conn w with
     | Some _ => count_of Connected (trace w) = 1%nat
     | None => count_of Connected (trace w) = 0%nat
     end.
Proof. intros [->|(c & d' & -> & _)]; by simpl. Qed.

(** What a run that ends short of line 34 leaves on the file. *)
Lemma stopped_disk d w :
  stopped d w ->
  rows_of (disk w) = rows_of d
  \/ rows_of (disk w) = rows_of d ++ number_from (last_id d) user_data.
Proof.
  intros [->|(c & d' & -> & [->|[->|Hbatch]])]; simpl; auto.
  - left. apply rows_of_create.
  - right. apply insert_batch_inr in Hbatch as (-> & _ & _).
    by rewrite rows_of_create, last_id_create.
Qed.

(** C1 (as amended).  The script executes [connection.close()] exactly
    once on the path on which no statement raises: it is then the last
    thing the process does, after one connect.  When a statement of
    lines 4 to 32 raises, nothing is printed and [close] is not
    executed: the connection, if it was opened, is still open when the
    script stops. *)
Theorem close_reached_only_without_error (raises : call -> bool) (d : db) :
  match main raises (boot d) with
  | (Ok _, w) =>
      count_of Connected (trace w) = 1%nat
      /\ count_of Closed (trace w) = 1%nat
      /\ last (trace w) = Some Closed
      /\ conn w = None
  | (Raise _, w) =>
      stdout_of (trace w) = []
      /\ count_of Closed (trace w) = 0%nat
      /\ match conn w with
         | Some _ => count_of Connected (trace w) = 1%nat
         | None => count_of Connected (trace w) = 0%nat
         end
  end.
Proof.
  pose proof (main_post raises d) as Hmain.
  destruct (main raises (boot d)) as [[[]|e] w].
  - destruct Hmain as (d' & _ & ->). cbn [trace conn].
    by destruct (finished_trace (header :: map format_user (rows_of d')))
      as (? & ? & ? & _).
  - by apply stopped_trace in Hmain.
Qed.

(** C1 (as stated) fails: when the CREATE TABLE statement raises on a
    fresh file, the process exits with status 1 having opened the
    connection once and never closed it. *)
Lemma close_skipped_when_create_raises :
  let '(r, w) := main (fault_at CallCreate) (boot None) in
  exit_status r = 1
  /\ count_of Connected (trace w) = 1%nat
  /\ count_of Closed (trace w) = 0%nat
  /\ conn w = Some (Connection None []).
Proof. vm_compute. done. Qed.

(** C2.  On a fresh store the script binds [users] to exactly the four
    seed records, with ids 1, 2, 3, 4 in that order: this is what line
    32 returns whenever the run gets that far, and without faults it
    does. *)
Theorem seed_reproducibility :
  (forall raises,
     match upto_fetch raises (boot None) with
     | (Ok users, _) =>
         users = [ Row 1 "Basir" 15 "normal"; Row 2 "Ana" 25 "admin";
                   Row 3 "Luis" 35 "normal"; Row 4 "Maria" 28 "admin" ]
     | (Raise _, _) => True
     end)
  /\ (upto_fetch no_faults (boot None)).1
     = Ok [ Row 1 "Basir" 15 "normal"; Row 2 "Ana" 25 "admin";
            Row 3 "Luis" 35 "normal"; Row 4 "Maria" 28 "admin" ].
Proof.
  split; [|by vm_compute].
  intros raises. pose proof (upto_fetch_post raises None) as Hfetch.
  destruct (upto_fetch raises (boot None)) as [[users|e] w]; [|done].
  destruct Hfetch as (d' & Hbatch & -> & _).
  vm_compute in Hbatch. by injection Hbatch as <-.
Qed.

(** C3.  A second run on the file the first run left appends the seed
    batch again: line 32 of the second run returns eight records, ids 1
    to 8, the last four repeating the (name, age, rol) of the first
    four. *)
Theorem duplication_on_repeat_run :
  (forall raises1 raises2,
     match main raises1 (boot None) with
     | (Ok _, w1) =>
         match upto_fetch raises2 (boot (disk w1)) with
         | (Ok users, _) =>
             users = [ Row 1 "Basir" 15 "normal"; Row 2 "Ana" 25 "admin";
                       Row 3 "Luis" 35 "normal"; Row 4 "Maria" 28 "admin";
                       Row 5 "Basir" 15 "normal"; Row 6 "Ana" 25 "admin";
                       Row 7 "Luis" 35 "normal"; Row 8 "Maria" 28 "admin" ]
             /\ map fields (drop 4 users) = map fields (take 4 users)
         | (Raise _, _) => True
         end
     | (Raise _, _) => True
     end)
  /\ (upto_fetch no_faults (boot (disk (main no_faults (boot None)).2))).1
     = Ok [ Row 1 "Basir" 15 "normal"; Row 2 "Ana" 25 "admin";
            Row 3 "Luis" 35 "normal"; Row 4 "Maria" 28 "admin";
            Row 5 "Basir" 15 "normal"; Row 6 "Ana" 25 "admin";
            Row 7 "Luis" 35 "normal"; Row 8 "Maria" 28 "admin" ].
Proof.
  split; [|by vm_compute].
  intros raises1 raises2. pose proof (main_post raises1 None) as Hmain.
  destruct (main raises1 (boot None)) as [[[]|e1] w1]; [|done].
  destruct Hmain as (d1 & Hbatch1 & ->).
  vm_compute in Hbatch1. injection Hbatch1 as <-.
  pose proof (upto_fetch_post raises2
                (Some (Table 4 [ Row 1 "Basir" 15 "normal"; Row 2 "Ana" 25 "admin";
                                 Row 3 "Luis" 35 "normal"; Row 4 "Maria" 28 "admin" ])))
    as Hfetch.
  simpl disk.
  destruct (upto_fetch raises2 _) as [[users|e2] w2]; [|done].
  destruct Hfetch as (d2 & Hbatch2 & -> & _).
  vm_compute in Hbatch2. by injection Hbatch2 as <-.
Qed.

(** C4.  [render] never raises and prints the header line followed by
    one line per record, in the order of [users], each of the form
    [User -> <name> | Age -> <age> | Rol -> <rol>]; a run that reaches
    its end has printed exactly that for the rows of the table; and the
    line for ("Ana", 25, "admin") is as the specification quotes it. *)
Theorem render_format :
  (forall users w,
     render users w
     = (Ok tt,
        World (disk w) (conn w)
              (trace w
                 ++ Printed "------ Usuarios en la base de datos ------"
                 :: map (fun user =>
                           Printed ("User -> " +:+ r_name user
                                      +:+ " | Age -> " +:+ pretty (r_age user)
                                      +:+ " | Rol -> " +:+ r_rol user))
                        users)))
  /\ (forall raises d,
        match main raises (boot d) with
        | (Ok _, w) =>
            stdout_of (trace w) = header :: map format_user (rows_of (disk w))
        | (Raise _, _) => True
        end)
  /\ format_user (Row 2 "Ana" 25 "admin") = "User -> Ana | Age -> 25 | Rol -> admin".
Proof.
  split_and!; [| |by vm_compute].
  - intros users w. rewrite render_eq. simpl. by rewrite map_map.
  - intros raises d. pose proof (main_post raises d) as Hmain.
    destruct (main raises (boot d)) as [[[]|e] w]; [|done].
    destruct Hmain as (d' & _ & ->). cbn [trace disk].
    by destruct (finished_trace (header :: map format_user (rows_of d')))
      as (_ & _ & _ & ?).
Qed.

(** Where a run leaves the contents of the file, by whether line 10
    was executed. *)
Lemma main_stops_before_create raises d :
  raises CallConnect || raises CallCreate = true ->
  exit_status (main raises (boot d)).1 = 1
  /\ disk (main raises (boot d)).2 = d.
Proof.
  intros Hraise. unfold main. rewrite bind_unfold, open_store_boot.
  destruct (raises CallConnect); [done|].
  rewrite bind_unfold, ensure_schema_idle.
  by destruct (raises CallCreate).
Qed.

Lemma main_creates raises d :
  raises CallConnect = false ->
  raises CallCreate = false ->
  is_Some (disk (main raises (boot d)).2).
Proof.
  intros Hconnect Hcreate.
  assert (is_Some (create_table_if_not_exists d)) as Hsome
    by (destruct d; simpl; eauto).
  rewrite main_split, bind_unfold. unfold upto_fetch.
  rewrite bind_unfold, open_store_boot, Hconnect.
  rewrite bind_unfold, ensure_schema_idle, Hcreate.
  rewrite bind_unfold.
  pose proof (seed_records_idle raises (create_table_if_not_exists d) [] [Connected])
    as Hseed.
  destruct (seed_records raises _) as [[[]|e] w].
  2:{ by destruct Hseed as (c & ->). }
  destruct Hseed as (d' & Hbatch & ->).
  apply insert_batch_inr in Hbatch as (_ & _ & Hsome'). specialize (Hsome' Hsome).
  pose proof (fetch_all_idle raises d' [] [Connected]) as Hfetch.
  destruct (fetch_all raises _) as [[users|e] w].
  2:{ by subst w. }
  destruct Hfetch as (_ & -> & ->).
  by rewrite bind_unfold, render_eq.
Qed.

Lemma create_table_entry_present name cols (m : gmap string schema_entry) :
  is_Some (m !! name) -> create_table_entry name cols m = m.
Proof. intros [e He]. unfold create_table_entry. by rewrite He. Qed.

Lemma create_table_entry_lookup name cols (m : gmap string schema_entry) :
  is_Some (create_table_entry name cols m !! name).
Proof.
  unfold create_table_entry. destruct (m !! name) as [e|] eqn:He; [by rewrite He|].
  cbv zeta. destruct (existsb c_autoincrement cols).
  - destruct (_ !! "sqlite_sequence") eqn:Hs.
    + rewrite lookup_insert_eq. eauto.
    + destruct (decide (name = "sqlite_sequence")) as [->|Hne].
      * rewrite lookup_insert_eq. eauto.
      * rewrite lookup_insert_ne, lookup_insert_eq by done. eauto.
  - rewrite lookup_insert_eq. eauto.
Qed.

(** The schema table and the contents of the file stay in step over a
    run, however it ends. *)
Lemma run_on_consistent raises f :
  consistent f -> consistent (run_on raises f).2.
Proof.
  unfold consistent, run_on. intros Hf.
  destruct (main raises (boot (f_users f))) as [r w] eqn:Hrun. cbn [snd f_schema f_users].
  destruct (raises CallConnect || raises CallCreate) eqn:Hraise.
  - pose proof (main_stops_before_create raises (f_users f) Hraise) as [_ Hdisk].
    rewrite Hrun in Hdisk. simpl in Hdisk. by rewrite Hdisk.
  - apply orb_false_elim in Hraise as [Hconnect Hcreate].
    pose proof (main_creates raises (f_users f) Hconnect Hcreate) as Hdisk.
    rewrite Hrun in Hdisk. simpl in Hdisk.
    split; [done|]. intros _. apply create_table_entry_lookup.
Qed.

(** C5 (as amended).  After a run on a fresh file that reaches its end,
    the schema table holds [users] with the columns id INTEGER PRIMARY
    KEY AUTOINCREMENT, name TEXT NOT NULL, age INTEGER NOT NULL and rol
    TEXT NOT NULL -- the fourth column is named [rol] -- and, beside
    it, only [sqlite_sequence], which the engine creates for the
    AUTOINCREMENT column; without faults the run does reach its end.  A
    [users] table that is already in the file keeps the declaration it
    has, whatever that is, and the schema table is left as it was. *)
Theorem persisted_state_layout (raises : call -> bool) :
  match run_on raises (File ∅ None) with
  | (Ok _, f) =>
      f_schema f
      = <["sqlite_sequence" := EngineTable]>
          (<["users" := Declared
                          [ Column "id" INTEGER true true false;
                            Column "name" TEXT false false true;
                            Column "age" INTEGER false false true;
                            Column "rol" TEXT false false true ]]> ∅)
  | (Raise _, _) => True
  end
  /\ (run_on no_faults (File ∅ None)).1 = Ok tt
  /\ forall f : file,
       match f_schema f !! "users" with
       | Some _ => f_schema (run_on raises f).2 = f_schema f
       | None => True
       end.
Proof.
  split_and!.
  - unfold run_on. cbn [f_users f_schema].
    destruct (raises CallConnect || raises CallCreate) eqn:Hraise.
    + apply (main_stops_before_create raises None) in Hraise as [Hexit _].
      by destruct (main raises (boot None)) as [[[]|e] w].
    + by destruct (main raises (boot None)) as [[[]|e] w].
  - by vm_compute.
  - intros f. destruct (f_schema f !! "users") as [e|] eqn:He; [|done].
    unfold run_on. destruct (main raises (boot (f_users f))) as [r w].
    cbn [snd f_schema]. destruct (raises CallConnect || raises CallCreate); [done|].
    apply create_table_entry_present. rewrite He. eauto.
Qed.

(** C5 (as stated) fails: after a run on a fresh file the schema table
    is not the single table [users] of the specification, whose fourth
    column is named [role]: the column is named [rol], and
    [sqlite_sequence] is there as well. *)
Lemma fourth_column_is_not_role :
  let schema := f_schema (run_on no_faults (File ∅ None)).2 in
  schema <> {[ "users" := Declared spec_users_columns ]}
  /\ schema !! "users" <> Some (Declared spec_users_columns)
  /\ schema !! "sqlite_sequence" = Some EngineTable.
Proof.
  assert (f_schema (run_on no_faults (File ∅ None)).2 !! "users"
          = Some (Declared users_columns)) as Husers by reflexivity.
  cbv zeta. split_and!.
  - intros Heq. rewrite Heq, lookup_singleton_eq in Husers.
    by injection Husers.
  - rewrite Husers. by intros [=].
  - reflexivity.
Qed.

(** C6.  With the connection open and no fault at the CREATE statement,
    executing line 10 raises no error, and executing it again changes
    nothing more: the process sees one [users] table with the declared
    columns, and the rows it saw before, on the file and in the open
    transaction, are as they were. *)
Theorem ensure_schema_idempotent (raises : call -> bool) (w : world) :
  raises CallCreate = false ->
  is_Some (conn w) ->
  exists w1,
    ensure_schema raises w = (Ok tt, w1)
    /\ ensure_schema raises w1 = (Ok tt, w1)
    /\ catalog (current w1) = [("users", users_columns)]
    /\ rows_of (current w1) = rows_of (current w)
    /\ rows_of (disk w1) = rows_of (disk w).
Proof.
  intros Hno [c Hc]. destruct w as [d ? tr]. simpl in Hc. subst.
  unfold ensure_schema, execute, may_raise. rewrite !bind_unfold, Hno.
  unfold with_connection, store, current, view. simpl.
  destruct c as [[d1|] rs]; simpl.
  - eexists. split; [reflexivity|]. rewrite bind_unfold. simpl.
    rewrite create_table_if_not_exists_idemp, catalog_create, rows_of_create.
    done.
  - eexists. split; [reflexivity|]. rewrite bind_unfold. simpl.
    rewrite create_table_if_not_exists_idemp, catalog_create, rows_of_create.
    done.
Qed.

Lemma ensure_schema_idempotent_witness :
  exists w1,
    ensure_schema no_faults (idle (Some (Table 1 [Row 1 "Ana" 25 "admin"])) [] [Connected])
    = (Ok tt, w1)
    /\ ensure_schema no_faults w1 = (Ok tt, w1)
    /\ catalog (current w1) = [("users", users_columns)]
    /\ rows_of (current w1)
       = rows_of (current (idle (Some (Table 1 [Row 1 "Ana" 25 "admin"])) [] [Connected]))
    /\ rows_of (disk w1)
       = rows_of (disk (idle (Some (Table 1 [Row 1 "Ana" 25 "admin"])) [] [Connected])).
Proof.
  apply (ensure_schema_idempotent no_faults
           (idle (Some (Table 1 [Row 1 "Ana" 25 "admin"])) [] [Connected])).
  - reflexivity.
  - simpl. eauto.
Defined.

(** C7.  Whatever fails and wherever, a run leaves on the file either
    the rows it found, or those rows followed by all four seed records:
    no run leaves one, two or three of them.  A run that reaches its
    end leaves all four. *)
Theorem seed_batch_is_atomic (raises : call -> bool) (d : db) :
  match main raises (boot d) with
  | (Ok _, w) =>
      exists new, rows_of (disk w) = rows_of d ++ new
                  /\ map fields new = user_data
  | (Raise _, w) =>
      rows_of (disk w) = rows_of d
      \/ exists new, rows_of (disk w) = rows_of d ++ new
                     /\ map fields new = user_data
  end.
Proof.
  pose proof (main_post raises d) as Hmain.
  destruct (main raises (boot d)) as [[[]|e] w].
  - destruct Hmain as (d' & Hbatch & ->). simpl.
    apply insert_batch_inr in Hbatch as (-> & _ & _).
    rewrite rows_of_create. eexists. split; [done|].
    apply number_from_fields.
  - apply stopped_disk in Hmain as [->| ->]; [by left|right].
    eexists. split; [done|]. apply number_from_fields.
Qed.

(** C8.  A run only appends: the rows that were in [users] before the
    run are, in the same order and with the same values, the first rows
    of the table afterwards, and a table that existed still exists. *)
Theorem existing_rows_untouched (raises : call -> bool) (d : db) :
  let w := (main raises (boot d)).2 in
  rows_of d `prefix_of` rows_of (disk w)
  /\ match d with
     | Some _ => is_Some (disk w)
     | None => True
     end.
Proof.
  pose proof (main_post raises d) as Hmain.
  destruct (main raises (boot d)) as [[[]|e] w]; simpl.
  - destruct Hmain as (d' & Hbatch & ->). simpl.
    apply insert_batch_inr in Hbatch as (-> & _ & Hsome).
    rewrite rows_of_create. split; [by apply prefix_app_r|].
    destruct d; [|done]. apply Hsome. simpl. eauto.
  - split.
    + apply stopped_disk in Hmain as [->| ->]; [done|by apply prefix_app_r].
    + destruct d as [t|]; [|done].
      destruct Hmain as [->|(c & d' & -> & [->|[->|Hbatch]])]; simpl; eauto.
      apply insert_batch_inr in Hbatch as (_ & _ & Hsome). apply Hsome.
      simpl. eauto.
Qed.

(** ** Further properties of the run *)

Lemma insert_batch_exact ps d d' :
  ps <> [] ->
  insert_batch ps d = inr d' ->
  d' = Some (Table (last_id d + Z.of_nat (length ps))
                   (rows_of d ++ number_from (last_id d) ps))
  /\ last_id d + Z.of_nat (length ps) <= max_rowid.
Proof.
  revert d. induction ps as [|p ps IH]; intros d Hne; [done|]. simpl.
  destruct (insert_into p d) as [e|d1] eqn:Hp; [discriminate|].
  apply insert_into_inr in Hp as (Hroom & _ & ->).
  pose proof (last_id_insert d p (last_id_nonneg d)) as Hlast.
  destruct ps as [|q ps].
  - simpl. intros [= <-]. split; [done|lia].
  - intros Hbatch. apply IH in Hbatch as [-> Hroom']; [|done].
    rewrite Hlast in *. destruct p as [[name age] rol].
    cbn [rows_of t_rows number_from length] in *.
    split; [|lia]. rewrite <- app_assoc. simpl. do 2 f_equal. lia.
Qed.

Lemma number_from_app last ps qs :
  number_from last (ps ++ qs)
  = number_from last ps ++ number_from (last + Z.of_nat (length ps)) qs.
Proof.
  revert last. induction ps as [|[[name age] rol] ps IH]; intros last; simpl.
  - by rewrite Z.add_0_r.
  - rewrite IH. do 3 f_equal. lia.
Qed.

Lemma number_from_ids_above last ps :
  Forall (fun i => last < i) (map r_id (number_from last ps)).
Proof.
  revert last. induction ps as [|[[name age] rol] ps IH]; intros last; simpl.
  - constructor.
  - constructor; [lia|]. eapply Forall_impl; [apply IH|]. simpl. lia.
Qed.

Lemma number_from_ids_sorted last ps :
  StronglySorted Z.lt (map r_id (number_from last ps)).
Proof.
  revert last. induction ps as [|[[name age] rol] ps IH]; intros last; simpl.
  - constructor.
  - constructor; [apply IH|]. apply number_from_ids_above.
Qed.

Lemma largest_id_bounds rs :
  Forall (fun i => i <= largest_id rs) (map r_id rs).
Proof.
  induction rs as [|r rs IH]; simpl; constructor; [lia|].
  eapply Forall_impl; [apply IH|]. simpl. lia.
Qed.

Section Faults.

Variable raises : call -> bool.

Lemma insert_steps_run_in ps : forall i d d1 d2 rs tr,
  (forall j, (i <= j < i + length ps)%nat -> raises (CallInsert j) = false) ->
  insert_batch ps d1 = inr d2 ->
  insert_steps raises i ps (in_transaction d d1 rs tr)
  = (Ok tt, in_transaction d d2 rs tr).
Proof.
  induction ps as [|p ps IH]; intros i d d1 d2 rs tr Hno; simpl.
  - by intros [= ->].
  - destruct (insert_into p d1) as [e|d1'] eqn:Hp; [discriminate|].
    intros Hps. rewrite bind_unfold. unfold insert_step.
    rewrite bind_unfold, Hno by (simpl; lia). simpl.
    unfold with_connection, in_transaction, view. simpl. rewrite Hp.
    apply IH; [|done]. intros j Hj. apply Hno. simpl. lia.
Qed.

Lemma insert_steps_ok_inv ps : forall i w w',
  insert_steps raises i ps w = (Ok tt, w') ->
  forall j, (i <= j < i + length ps)%nat -> raises (CallInsert j) = false.
Proof.
  induction ps as [|p ps IH]; intros i w w' Hok j Hj; simpl in *; [lia|].
  rewrite bind_unfold in Hok. unfold insert_step in Hok.
  rewrite bind_unfold in Hok.
  destruct (raises (CallInsert i)) eqn:Hi; [discriminate|]. simpl in Hok.
  destruct (with_connection _ w) as [[[]|e] w1]; [|discriminate].
  destruct (decide (j = i)) as [->|Hne]; [done|].
  apply (IH (S i) w1 w' Hok). lia.
Qed.



Lemma performed_no_fault :
  (forall c, c ∈ performed -> raises c = false) ->
  raises CallConnect = false /\ raises CallCreate = false
  /\ (forall j, (0 <= j < 0 + length user_data)%nat -> raises (CallInsert j) = false)
  /\ raises CallCommit = false /\ raises CallSelect = false.
Proof.
  intros Hno. split_and!; try (apply Hno; unfold performed; by repeat constructor).
  intros j Hj. simpl in Hj. apply Hno. unfold performed.
  destruct j as [|[|[|[|j]]]]; [by repeat constructor..|lia].
Qed.

(** A run in which none of the eight calls raises, on a table with four
    rowids to spare. *)
Lemma main_returns d :
  (forall c, c ∈ performed -> raises c = false) ->
  last_id d + 4 <= max_rowid ->
  main raises (boot d)
  = (Ok tt,
     World (Some (Table (last_id d + 4)
                        (rows_of d ++ number_from (last_id d) user_data)))
           None
           (Connected
              :: map Printed
                   (header :: map format_user
                                (rows_of d ++ number_from (last_id d) user_data))
              ++ [Closed])).
Proof.
  intros Hno Hroom.
  apply performed_no_fault in Hno as (Hconnect & Hcreate & Hinsert & Hcommit & Hselect).
  destruct (insert_batch_is_inr user_data (create_table_if_not_exists d))
    as [d' Hbatch].
  { destruct d; simpl; eauto. }
  { rewrite last_id_create. simpl. lia. }
  pose proof Hbatch as Hexact.
  apply insert_batch_exact in Hexact as [-> _]; [|done].
  rewrite last_id_create, rows_of_create in Hbatch. simpl length in Hbatch.
  rewrite main_split, bind_unfold. unfold upto_fetch.
  rewrite bind_unfold, open_store_boot, Hconnect.
  rewrite bind_unfold, ensure_schema_idle, Hcreate.
  rewrite bind_unfold. unfold seed_records, executemany.
  rewrite !bind_unfold.
  change (begin_transaction (idle (create_table_if_not_exists d) [] [Connected]))
    with (Ok tt, in_transaction (create_table_if_not_exists d)
                   (create_table_if_not_exists d) [] [Connected]).
  cbv beta iota zeta.
  rewrite (insert_steps_run_in _ _ _ _ _ _ _ Hinsert Hbatch).
  unfold commit, with_connection, in_transaction. simpl. rewrite Hcommit.
  unfold fetch_all, execute, may_raise. rewrite !bind_unfold, Hselect. simpl.
  by rewrite bind_unfold, render_eq.
Qed.

(** A run that reaches its end met no fault at any of the eight calls
    and found four rowids to spare. *)
Lemma main_ok_inv d w :
  main raises (boot d) = (Ok tt, w) ->
  (forall c, c ∈ performed -> raises c = false)
  /\ last_id d + 4 <= max_rowid.
Proof.
  intros Hok. split.
  - rewrite main_split, bind_unfold in Hok. unfold upto_fetch in Hok.
    rewrite bind_unfold, open_store_boot in Hok.
    destruct (raises CallConnect) eqn:Hconnect; [discriminate|].
    rewrite bind_unfold, ensure_schema_idle in Hok.
    destruct (raises CallCreate) eqn:Hcreate; [discriminate|].
    rewrite bind_unfold in Hok. unfold seed_records, executemany in Hok.
    rewrite !bind_unfold in Hok.
    change (begin_transaction (idle (create_table_if_not_exists d) [] [Connected]))
      with (Ok tt, in_transaction (create_table_if_not_exists d)
                     (create_table_if_not_exists d) [] [Connected]) in Hok.
    cbv beta iota zeta in Hok.
    pose proof (insert_steps_post raises user_data 0
                  (create_table_if_not_exists d) (create_table_if_not_exists d)
                  [] [Connected]) as Hpost.
    destruct (insert_steps raises 0 user_data _) as [[[]|e] w1] eqn:Hsteps;
      [|discriminate].
    pose proof (insert_steps_ok_inv _ _ _ _ Hsteps) as Hinsert.
    destruct Hpost as (d' & _ & ->).
    unfold commit, with_connection, in_transaction in Hok. simpl in Hok.
    destruct (raises CallCommit) eqn:Hcommit; [discriminate|].
    unfold fetch_all, execute, may_raise in Hok. rewrite !bind_unfold in Hok.
    destruct (raises CallSelect) eqn:Hselect; [discriminate|].
    intros c Hc. unfold performed in Hc.
    repeat (apply elem_of_cons in Hc as [->|Hc];
            [done || (apply Hinsert; simpl; lia)|]).
    by apply elem_of_nil in Hc.
  - pose proof (main_post raises d) as Hpost. rewrite Hok in Hpost.
    destruct Hpost as (d' & Hbatch & _).
    apply insert_batch_exact in Hbatch as [_ Hroom]; [|done].
    rewrite last_id_create in Hroom. simpl in Hroom. lia.
Qed.

End Faults.

(** The rows on the file after a run, however the run ends. *)
Lemma run_rows raises d :
  let rs := rows_of (disk (main raises (boot d)).2) in
  rs = rows_of d \/ rs = rows_of d ++ number_from (last_id d) user_data.
Proof.
  pose proof (main_post raises d) as Hpost.
  destruct (main raises (boot d)) as [[[]|e] w]; simpl.
  - destruct Hpost as (d' & Hbatch & ->). simpl. right.
    apply insert_batch_inr in Hbatch as (-> & _ & _).
    by rewrite rows_of_create, last_id_create.
  - by apply stopped_disk.
Qed.

Lemma sorted_lt_NoDup (l : list Z) : StronglySorted Z.lt l -> NoDup l.
Proof.
  induction 1 as [|x l _ IH Hx]; constructor; [|done].
  intros Hin. rewrite Forall_forall in Hx. specialize (Hx x Hin). lia.
Qed.

Lemma ids_sorted_append d ps :
  StronglySorted Z.lt (ids d) ->
  StronglySorted Z.lt (map r_id (rows_of d ++ number_from (last_id d) ps)).
Proof.
  intros Hsorted. rewrite map_app. apply StronglySorted_app_2; [|done|].
  - intros i1 i2 H1 H2.
    pose proof (largest_id_bounds (rows_of d)) as Hold.
    pose proof (number_from_ids_above (last_id d) ps) as Hnew.
    rewrite Forall_forall in Hold, Hnew.
    specialize (Hold i1 H1). specialize (Hnew i2 H2).
    destruct d as [t|]; simpl in *; lia.
  - apply number_from_ids_sorted.
Qed.

Lemma number_from_ids last ps :
  map r_id (number_from last ps) = seqZ (last + 1) (Z.of_nat (length ps)).
Proof.
  revert last. induction ps as [|[[name age] rol] ps IH]; intros last.
  - reflexivity.
  - cbn [number_from map length r_id]. rewrite IH, (seqZ_cons (last + 1)) by lia.
    do 2 f_equal; lia.
Qed.

(** X1.  A run that reaches its end leaves the table with the rows it
    had, followed by the four seed rows numbered k+1 to k+4, where k is
    the largest rowid the table has ever held: the larger of its
    AUTOINCREMENT counter and of the ids present, 0 for a table the run
    creates.  The counter is k+4 afterwards. *)
Theorem seed_ids_follow_largest_rowid (raises : call -> bool) (d : db) :
  match main raises (boot d) with
  | (Ok _, w) =>
      disk w
      = Some (Table (last_id d + 4)
                    (rows_of d
                       ++ [ Row (last_id d + 1) "Basir" 15 "normal";
                            Row (last_id d + 2) "Ana" 25 "admin";
                            Row (last_id d + 3) "Luis" 35 "normal";
                            Row (last_id d + 4) "Maria" 28 "admin" ]))
  | (Raise _, _) => True
  end.
Proof.
  pose proof (main_post raises d) as Hpost.
  destruct (main raises (boot d)) as [[[]|e] w]; [|done].
  destruct Hpost as (d' & Hbatch & ->).
  apply insert_batch_exact in Hbatch as [-> _]; [|done].
  rewrite last_id_create, rows_of_create. simpl.
  by rewrite <- !Z.add_assoc.
Qed.

(** X2.  A run exits with status 0 exactly when the engine raises at
    none of the eight calls the script makes and the table has four
    rowids to spare. *)
Theorem run_succeeds_iff (raises : call -> bool) (d : db) :
  exit_status (main raises (boot d)).1 = 0
  <-> (forall c, c ∈ performed -> raises c = false)
      /\ last_id d + 4 <= max_rowid.
Proof.
  split.
  - destruct (main raises (boot d)) as [[[]|e] w] eqn:Hrun; [|done].
    intros _. by apply (main_ok_inv raises d w).
  - intros [Hno Hroom]. by rewrite (main_returns raises d Hno Hroom).
Qed.

(** X3.  If the ids of the table are strictly increasing in scan order
    before a run, they are so after it, however the run ends; in
    particular no id occurs twice. *)
Theorem ids_stay_increasing (raises : call -> bool) (d : db) :
  StronglySorted Z.lt (ids d) ->
  StronglySorted Z.lt (ids (disk (main raises (boot d)).2))
  /\ NoDup (ids (disk (main raises (boot d)).2)).
Proof.
  intros Hsorted.
  assert (StronglySorted Z.lt (ids (disk (main raises (boot d)).2))) as Hafter.
  { unfold ids at 1. destruct (run_rows raises d) as [-> | ->]; [done|].
    by apply ids_sorted_append. }
  split; [done|]. by apply sorted_lt_NoDup.
Qed.

Lemma ids_stay_increasing_witness :
  StronglySorted Z.lt
    (ids (disk (main no_faults
                  (boot (Some (Table 7 [Row 2 "Eva" 40 "admin"; Row 5 "Leo" 33 "normal"])))).2))
  /\ NoDup
       (ids (disk (main no_faults
                     (boot (Some (Table 7 [Row 2 "Eva" 40 "admin"; Row 5 "Leo" 33 "normal"])))).2)).
Proof.
  apply (ids_stay_increasing no_faults
           (Some (Table 7 [Row 2 "Eva" 40 "admin"; Row 5 "Leo" 33 "normal"]))).
  simpl. repeat constructor; lia.
Defined.

(** X4.  [n] runs in a row, none of which meets a fault, on a table
    with [4 * n] rowids to spare: the table ends with the rows it had,
    followed by [n] copies of the seed batch, one after the other,
    under the next [4 * n] consecutive ids. *)
Theorem rerun_appends (raises : call -> bool) (n : nat) (d : db) :
  (forall c, c ∈ performed -> raises c = false) ->
  last_id d + 4 * Z.of_nat n <= max_rowid ->
  map fields (rows_of (rerun raises n d))
  = map fields (rows_of d) ++ concat (replicate n user_data)
  /\ ids (rerun raises n d)
     = ids d ++ seqZ (last_id d + 1) (4 * Z.of_nat n).
Proof.
  intros Hno. revert d. induction n as [|n IH]; intros d Hroom.
  - simpl. by rewrite !app_nil_r.
  - cbn [rerun]. rewrite (main_returns raises d Hno) by lia. cbn [snd disk].
    specialize (IH (Some (Table (last_id d + 4)
                                (rows_of d ++ number_from (last_id d) user_data)))).
    assert (last_id (Some (Table (last_id d + 4)
                                 (rows_of d ++ number_from (last_id d) user_data)))
            = last_id d + 4) as Hlast.
    { simpl. rewrite largest_id_app. simpl.
      pose proof (last_id_nonneg d).
      assert (largest_id (rows_of d) <= last_id d)
        by (destruct d as [t|]; simpl; lia).
      lia. }
    rewrite Hlast in IH. destruct IH as [Hfields Hids]; [lia|].
    rewrite Hfields, Hids. unfold ids. cbn [rows_of t_rows].
    rewrite !map_app, number_from_fields, number_from_ids, <- !app_assoc.
    split; [done|]. f_equal.
    change (Z.of_nat (length user_data)) with 4.
    replace (4 * Z.of_nat (S n)) with (4 + 4 * Z.of_nat n) by lia.
    rewrite seqZ_app by lia. do 2 f_equal. lia.
Qed.

Lemma rerun_appends_witness :
  map fields (rows_of (rerun no_faults 3 None))
  = map fields (rows_of None) ++ concat (replicate 3 user_data)
  /\ ids (rerun no_faults 3 None)
     = ids None ++ seqZ (last_id None + 1) (4 * Z.of_nat 3).
Proof.
  apply (rerun_appends no_faults 3 None).
  - reflexivity.
  - vm_compute. discriminate.
Defined.



Lemma rerun_rows_last raises n : forall d,
  (forall c, c ∈ performed -> raises c = false) ->
  last_id d + 4 * Z.of_nat n <= max_rowid ->
  rows_of (rerun raises n d)
  = rows_of d ++ number_from (last_id d) (concat (replicate n user_data))
  /\ last_id (rerun raises n d) = last_id d + 4 * Z.of_nat n.
Proof.
  induction n as [|n IH]; intros d Hno Hroom.
  - simpl. rewrite app_nil_r. split; [done|lia].
  - cbn [rerun]. rewrite (main_returns raises d Hno) by lia. cbn [snd disk].
    assert (last_id (Some (Table (last_id d + 4)
                                 (rows_of d ++ number_from (last_id d) user_data)))
            = last_id d + 4) as Hlast.
    { simpl. rewrite largest_id_app. simpl.
      pose proof (last_id_nonneg d).
      assert (largest_id (rows_of d) <= last_id d)
        by (destruct d as [t|]; simpl; lia).
      lia. }
    destruct (IH (Some (Table (last_id d + 4)
                              (rows_of d ++ number_from (last_id d) user_data))))
      as [Hrows Hl]; [done|rewrite Hlast; lia|].
    rewrite Hrows, Hl, Hlast. cbn [rows_of t_rows replicate concat].
    rewrite number_from_app, <- app_assoc.
    split; [|lia]. do 2 f_equal.
Qed.

Lemma format_user_number_from last ps :
  map format_user (number_from last ps)
  = map (fun p : params => format_user (Row 0 p.1.1 p.1.2 p.2)) ps.
Proof.
  revert last. induction ps as [|[[name age] rol] ps IH]; intros last; simpl.
  - done.
  - by rewrite IH.
Qed.

Lemma concat_replicate_snoc {A} n (l : list A) :
  concat (replicate n l) ++ l = concat (replicate (S n) l).
Proof.
  induction n as [|n IH]; simpl.
  - by rewrite app_nil_r.
  - simpl in IH. by rewrite <- app_assoc, IH.
Qed.

Lemma map_concat_replicate {A B} (f : A -> B) n (l : list A) :
  map f (concat (replicate n l)) = concat (replicate n (map f l)).
Proof.
  induction n as [|n IH]; simpl; [done|]. by rewrite map_app, IH.
Qed.

(** X6.  On a file that started empty, the run after [n] earlier ones
    prints the header and then the same four lines [n + 1] times over,
    as long as no run meets a fault. *)
Theorem output_grows_with_each_run (raises : call -> bool) (n : nat) :
  (forall c, c ∈ performed -> raises c = false) ->
  4 * Z.of_nat (S n) <= max_rowid ->
  stdout_of (trace (main raises (boot (rerun raises n None))).2)
  = "------ Usuarios en la base de datos ------"
    :: concat (replicate (S n)
                 [ "User -> Basir | Age -> 15 | Rol -> normal";
                   "User -> Ana | Age -> 25 | Rol -> admin";
                   "User -> Luis | Age -> 35 | Rol -> normal";
                   "User -> Maria | Age -> 28 | Rol -> admin" ]).
Proof.
  intros Hno Hroom.
  destruct (rerun_rows_last raises n None Hno) as [Hrows Hlast];
    [simpl; lia|].
  simpl in Hrows, Hlast.
  rewrite (main_returns raises _ Hno) by lia. cbn [snd trace].
  destruct (finished_trace
              (header :: map format_user
                           (rows_of (rerun raises n None)
                              ++ number_from (last_id (rerun raises n None))
                                   user_data)))
    as (_ & _ & _ & ->).
  rewrite Hrows, Hlast.
  replace (4 * Z.of_nat n) with (0 + Z.of_nat (length (concat (replicate n user_data)))).
  2:{ clear. induction n as [|n IH]; simpl; [done|].
      rewrite !Nat2Z.inj_succ. lia. }
  rewrite <- number_from_app, concat_replicate_snoc, format_user_number_from,
    map_concat_replicate.
  reflexivity.
Qed.

Lemma output_grows_with_each_run_witness :
  stdout_of (trace (main no_faults (boot (rerun no_faults 2 None))).2)
  = "------ Usuarios en la base de datos ------"
    :: concat (replicate 3
                 [ "User -> Basir | Age -> 15 | Rol -> normal";
                   "User -> Ana | Age -> 25 | Rol -> admin";
                   "User -> Luis | Age -> 35 | Rol -> normal";
                   "User -> Maria | Age -> 28 | Rol -> admin" ]).
Proof.
  apply (output_grows_with_each_run no_faults 2).
  - reflexivity.
  - vm_compute. discriminate.
Defined.

(** ** The Circle class *)

Lemma radius_setter_reenters {V} (lt_zero : V -> option bool) v :
  lt_zero v = Some false ->
  forall depth self calls,
    Circle._radius_setter V lt_zero depth self v calls
    = (Circle.Raise Circle.RecursionError, (calls + depth)%nat).
Proof.
  intros Hv. induction depth as [|depth IH]; intros self calls; simpl.
  - by rewrite Nat.add_0_r.
  - rewrite Hv, IH. f_equal. lia.
Qed.

Lemma radius_setter_never_returns {V} (lt_zero : V -> option bool) v :
  forall depth self calls self',
    (Circle._radius_setter V lt_zero depth self v calls).1
    <> Circle.Return self'.
Proof.
  induction depth as [|depth IH]; intros self calls self'; simpl; [done|].
  destruct (lt_zero v) as [[]|]; simpl; [done| |done]. apply IH.
Qed.

(** C9 (as amended).  Constructing a Circle never returns an instance.
    For a radius that is not below zero the setter re-enters itself
    until the interpreter has no frame left, whatever the recursion
    limit: with [limit] frames below [__init__] it is entered [limit]
    times.  For a radius below zero the setter raises ValueError on its
    first entry and does not re-enter. *)
Theorem circle_construction_never_returns {V}
    (lt_zero : V -> option bool) (radius : V) (limit : nat) :
  (forall self, (Circle.Circle V lt_zero limit radius).1 <> Circle.Return self)
  /\ match lt_zero radius with
     | Some false =>
         Circle.Circle V lt_zero (S limit) radius
         = (Circle.Raise Circle.RecursionError, limit)
     | Some true =>
         Circle.Circle V lt_zero (S (S limit)) radius
         = (Circle.Raise (Circle.ValueError "IngresÃ¡ un numero positivo gil"), 1%nat)
     | None =>
         Circle.Circle V lt_zero (S (S limit)) radius
         = (Circle.Raise Circle.TypeError, 1%nat)
     end.
Proof.
  split.
  - intros self. unfold Circle.Circle, Circle.__init__.
    destruct limit as [|limit]; [done|]. apply radius_setter_never_returns.
  - unfold Circle.Circle, Circle.__init__.
    destruct (lt_zero radius) as [[]|] eqn:Hv; simpl; rewrite ?Hv; try done.
    by rewrite (radius_setter_reenters lt_zero radius Hv).
Qed.

(** C9 (as stated) fails: under the default recursion limit,
    [Circle(-5)] raises ValueError after a single entry into the
    setter, where a radius of 5 exhausts the stack. *)
Lemma negative_radius_does_not_recurse :
  Circle.Circle Z Circle.int_lt_zero 1000 (-5)
  = (Circle.Raise (Circle.ValueError "IngresÃ¡ un numero positivo gil"), 1%nat)
  /\ Circle.Circle Z Circle.int_lt_zero 1000 5
     = (Circle.Raise Circle.RecursionError, 999%nat).
Proof. split; by vm_compute. Qed.

(** ** The other methods of Circle, and Rectangle *)

Lemma radius_getter_reenters {V} depth : forall (self : Circle.instance V) calls,
  CircleMethods._radius_getter V depth self calls
  = (Py.Raise Py.RecursionError, (calls + depth)%nat).
Proof.
  induction depth as [|depth IH]; intros self calls; simpl.
  - by rewrite Nat.add_0_r.
  - rewrite IH. f_equal. lia.
Qed.

Lemma width_setter_never_returns {V} (lt_zero : V -> option bool) value :
  forall depth self n self',
    (Rectangle.width_setter V lt_zero depth self value n).1
    <> Py.Return self'.
Proof.
  induction depth as [|depth IH]; intros self n self'; simpl; [done|].
  destruct (lt_zero value) as [[]|]; simpl; [done| |done]. apply IH.
Qed.

Lemma width_setter_height_calls {V} (lt_zero : V -> option bool) value :
  forall depth self n,
    Rectangle.height_calls
      (Rectangle.width_setter V lt_zero depth self value n).2
    = Rectangle.height_calls n.
Proof.
  induction depth as [|depth IH]; intros self n; simpl; [done|].
  destruct (lt_zero value) as [[]|]; simpl; [done| |done]. by rewrite IH.
Qed.

Lemma width_setter_reenters {V} (lt_zero : V -> option bool) value :
  lt_zero value = Some false ->
  forall depth self n,
    Rectangle.width_setter V lt_zero depth self value n
    = (Py.Raise Py.RecursionError,
       Rectangle.Calls (Rectangle.width_calls n + depth)
                       (Rectangle.height_calls n)).
Proof.
  intros Hv. induction depth as [|depth IH]; intros self n; simpl.
  - rewrite Nat.add_0_r. by destruct n.
  - rewrite Hv, IH. simpl. do 2 f_equal. lia.
Qed.

(** X7.  Reading [_radius] never yields a value: the getter re-enters
    itself once for every frame the interpreter still allows and ends
    in RecursionError, whatever the instance holds. *)
Theorem radius_getter_never_returns {V}
    (depth : nat) (self : Circle.instance V) (calls : nat) :
  CircleMethods._radius_getter V depth self calls
  = (Py.Raise Py.RecursionError, (calls + depth)%nat).
Proof. apply radius_getter_reenters. Qed.

(** X8.  [str(circle)] never yields the text [Circle(radius=...)]: with
    any frames left, [__str__] ends in RecursionError after the getter
    has used up every frame below it. *)
Theorem circle_str_never_returns {V} (str : V -> string)
    (depth : nat) (class_name : string) (self : Circle.instance V) :
  (forall s, (CircleMethods.__str__ V str depth class_name self).1 <> Py.Return s)
  /\ CircleMethods.__str__ V str (S depth) class_name self
     = (Py.Raise Py.RecursionError, depth).
Proof.
  split.
  - intros s. destruct depth as [|depth]; simpl; [done|].
    by rewrite radius_getter_reenters.
  - simpl. by rewrite radius_getter_reenters.
Qed.

(** X9.  Whatever radius line 26 passes, the module circle.py prints
    nothing and does not run to its end: the constructor raises before
    the first [print] is reached.  For a radius below zero, as in the
    source, the error is the ValueError of line 12. *)
Theorem circle_script_prints_nothing {V}
    (lt_zero : V -> option bool) (pi two : V)
    (mul pow : V -> V -> Py.outcome V) (str : V -> string)
    (limit : nat) (radius : V) :
  (CircleMethods.script V lt_zero pi two mul pow str limit radius).2 = []
  /\ (CircleMethods.script V lt_zero pi two mul pow str limit radius).1
     <> Py.Return tt
  /\ match lt_zero radius with
     | Some true =>
         (CircleMethods.script V lt_zero pi two mul pow str (S (S limit)) radius).1
         = Py.Raise (Py.ValueError "IngresÃ¡ un numero positivo gil")
     | Some false =>
         (CircleMethods.script V lt_zero pi two mul pow str limit radius).1
         = Py.Raise Py.RecursionError
     | None =>
         (CircleMethods.script V lt_zero pi two mul pow str (S (S limit)) radius).1
         = Py.Raise Py.TypeError
     end.
Proof.
  assert (forall limit',
            exists e n, Circle.Circle V lt_zero limit' radius = (Circle.Raise e, n))
    as Hraise.
  { intros limit'. unfold Circle.Circle, Circle.__init__.
    destruct limit' as [|limit']; [eauto|].
    pose proof (radius_setter_never_returns lt_zero radius limit'
                  (Circle.Instance V []) 0%nat) as Hnever.
    destruct (Circle._radius_setter V lt_zero limit' _ radius 0)
      as [[self|e] n]; [by destruct (Hnever self)|eauto]. }
  unfold CircleMethods.script. split_and!.
  - by destruct (Hraise limit) as (e & n & ->).
  - by destruct (Hraise limit) as (e & n & ->).
  - unfold Circle.Circle, Circle.__init__.
    destruct (lt_zero radius) as [[]|] eqn:Hv; simpl; rewrite ?Hv; try done.
    destruct limit as [|limit]; [done|].
    by rewrite (radius_setter_reenters lt_zero radius Hv).
Qed.

(** X10.  Constructing a Rectangle never returns an instance, and how it
    ends is decided by the width alone: the width is assigned first and
    its setter never returns, so the height setter is never entered and
    a height below zero is never reported.  A width not below zero uses
    up every frame; a width below zero raises ValueError at once. *)
Theorem rectangle_construction_decided_by_width {V}
    (lt_zero : V -> option bool) (limit : nat) (height width : V) :
  (forall self, (Rectangle.Rectangle V lt_zero limit height width).1
                <> Py.Return self)
  /\ Rectangle.height_calls (Rectangle.Rectangle V lt_zero limit height width).2
     = 0%nat
  /\ (forall height', Rectangle.Rectangle V lt_zero limit height' width
                      = Rectangle.Rectangle V lt_zero limit height width)
  /\ match lt_zero width with
     | Some false =>
         Rectangle.Rectangle V lt_zero (S limit) height width
         = (Py.Raise Py.RecursionError, Rectangle.Calls limit 0)
     | Some true =>
         Rectangle.Rectangle V lt_zero (S (S limit)) height width
         = (Py.Raise (Py.ValueError "Ingresá un numero positivo gil"),
            Rectangle.Calls 1 0)
     | None =>
         Rectangle.Rectangle V lt_zero (S (S limit)) height width
         = (Py.Raise Py.TypeError, Rectangle.Calls 1 0)
     end.
Proof.
  assert (forall h,
            Rectangle.Rectangle V lt_zero limit h width
            = match limit with
              | O => (Py.Raise Py.RecursionError, Rectangle.Calls 0 0)
              | S depth =>
                  match Rectangle.width_setter V lt_zero depth
                          (Rectangle.Instance V []) width (Rectangle.Calls 0 0) with
                  | (Py.Return _, n) => (Py.Raise Py.RecursionError, n)
                  | (Py.Raise e, n) => (Py.Raise e, n)
                  end
              end) as Hinit.
  { intros h. unfold Rectangle.Rectangle, Rectangle.__init__.
    destruct limit as [|depth]; [done|].
    pose proof (width_setter_never_returns lt_zero width depth
                  (Rectangle.Instance V []) (Rectangle.Calls 0 0)) as Hnever.
    destruct (Rectangle.width_setter V lt_zero depth _ width _)
      as [[self|e] n]; [by destruct (Hnever self)|done]. }
  split_and!.
  - intros self. rewrite Hinit. destruct limit as [|depth]; [done|].
    by destruct (Rectangle.width_setter V lt_zero depth _ width _) as [[?|?] ?].
  - rewrite Hinit. destruct limit as [|depth]; [done|].
    pose proof (width_setter_height_calls lt_zero width depth
                  (Rectangle.Instance V []) (Rectangle.Calls 0 0)) as Hcalls.
    by destruct (Rectangle.width_setter V lt_zero depth _ width _) as [[?|?] ?].
  - intros height'. by rewrite !Hinit.
  - unfold Rectangle.Rectangle, Rectangle.__init__.
    destruct (lt_zero width) as [[]|] eqn:Hv; simpl; rewrite ?Hv; try done.
    by rewrite (width_setter_reenters lt_zero width Hv).
Qed.

(** X11.  Reading [height] or [width] of a Rectangle never yields a
    value: each getter re-enters itself once for every frame left and
    ends in RecursionError. *)
Theorem rectangle_getters_never_return {V}
    (depth : nat) (self : Rectangle.instance V) (n : nat) :
  Rectangle.height_getter V depth self n
  = (Py.Raise Py.RecursionError, (n + depth)%nat)
  /\ Rectangle.width_getter V depth self n
     = (Py.Raise Py.RecursionError, (n + depth)%nat).
Proof.
  revert n. induction depth as [|depth IH]; intros n; simpl.
  - by rewrite Nat.add_0_r.
  - destruct (IH (S n)) as [-> ->]. split; f_equal; lia.
Qed.
